(** * lemire_rng.c: Lemire's nearly divisionless bounded random numbers

    A shallow embedding of [lemire_rng.c] and the properties of
    [lemire_rng] that follow from it.

    - C integers are mathematical integers ([Z]) with the wrap-around of
      each conversion and operation written out ([Uint.u32], [Uint.u64]).
    - The C library's [rand()] is a stateful function: its outputs are a
      stream [rand : nat -> Z] and the state of the program counts how many
      of them have been taken.
    - The [while] loop of [lemire_rng] has no bound on its iterations, so it
      is embedded with a fuel argument; [None] means the fuel ran out, never
      a result of the C function. *)

From Stdlib Require Import ZArith List Lia Bool Arith.
From Stdlib Require String Ascii DecimalString.
Import ListNotations.

Local Open Scope Z_scope.

(** ** Fixed-width unsigned arithmetic *)

Module Uint.

(** Conversion to a [w]-bit unsigned integer: reduction modulo [2^w]. *)
Definition wrap (w z : Z) : Z := z mod 2 ^ w.

Definition u32 (z : Z) : Z := wrap 32 z.
Definition u64 (z : Z) : Z := wrap 64 z.

(** Unary minus on a [uint32_t]: [-x] is computed modulo [2^32]. *)
Definition neg32 (x : Z) : Z := u32 (- x).

(** [x % y] on [uint32_t] operands, [y] non-zero. *)
Definition rem32 (x y : Z) : Z := u32 (x mod y).

(** [x * y] on [uint64_t] operands. *)
Definition mul64 (x y : Z) : Z := u64 (x * y).

(** [x >> k] and [x | y], [x & y], [x << k] on [uint32_t]/[uint64_t]
    operands; only the left shift can leave the width. *)
Definition shr (x k : Z) : Z := Z.shiftr x k.
Definition or32 (x y : Z) : Z := Z.lor x y.
Definition and32 (x y : Z) : Z := Z.land x y.
Definition shl32 (x k : Z) : Z := u32 (Z.shiftl x k).

End Uint.

(** ** Standard output *)

Module Stdio.

Import Ascii String.

(** The conversion [%u] of [printf]: the decimal digits of an unsigned
    integer. *)
Definition format_u (z : Z) : string :=
  DecimalString.NilZero.string_of_uint (N.to_uint (Z.to_N z)).

Definition newline : string := String "010"%char EmptyString.

(** What [printf("Random number in [0, %u[: %u\n", range, result)]
    writes. *)
Definition printf_random (range result : Z) : string :=
  ("Random number in [0, " ++ format_u range ++ "[: " ++ format_u result
   ++ newline)%string.

End Stdio.

(** ** The state of the program *)

(** [rand_calls]: how many times [rand()] was called so far.
    [draws]: how many times [get_random_uniform_32bits_integer] was called
    so far (the instrumentation the draw-count properties speak of). *)
Record world : Type := World {
  rand_calls : nat;
  draws : nat
}.

(** What a call of [lemire_rng] leaves behind: the returned [int], the
    contents of the cell [result] points to, and the state. *)
Record outcome : Type := Outcome {
  ret : Z;
  cell : Z;
  after : world
}.

Section Source.

(** The values [rand()] returns, in the order of the calls. *)
Variable rand : nat -> Z.

(** <<
    uint32_t result = (uint32_t)rand();
    result |= (((uint32_t)rand()) & 1) << 31;
    return result;
    >> *)
Definition get_random_uniform_32bits_integer (w : world) : Z * world :=
  let result := Uint.u32 (rand (rand_calls w)) in
  let result :=
    Uint.or32 result
      (Uint.shl32 (Uint.and32 (Uint.u32 (rand (S (rand_calls w)))) 1) 31) in
  (result, {| rand_calls := S (S (rand_calls w)); draws := S (draws w) |}).

(** <<
    const uint64_t n_times_range = n * (uint64_t)range;
    *i = (uint32_t)(n_times_range >> 32);
    *j = (uint32_t)n_times_range;
    >>
    The pair returned is [(i, j)]. *)
Definition compute_interval (n range : Z) : Z * Z :=
  let n_times_range := Uint.mul64 (Uint.u64 n) (Uint.u64 range) in
  (Uint.u32 (Uint.shr n_times_range 32), Uint.u32 n_times_range).

(** [uint32_t rejection_interval_upper_bound = (-range) % range;] *)
Definition rejection_interval_upper_bound (range : Z) : Z :=
  Uint.rem32 (Uint.neg32 range) range.

(** <<
    while (j < rejection_interval_upper_bound) {
        n = get_random_uniform_32bits_integer();
        compute_interval(n, range, &i, &j);
    }
    >>
    One unit of fuel pays for one execution of the body. *)
Fixpoint rejection_loop (fuel : nat) (range bound i j : Z) (w : world)
  : option (Z * Z * world) :=
  if j <? bound then
    match fuel with
    | O => None
    | S fuel' =>
        let '(n, w1) := get_random_uniform_32bits_integer w in
        let '(i1, j1) := compute_interval n range in
        rejection_loop fuel' range bound i1 j1 w1
    end
  else Some (i, j, w).

(** [int lemire_rng(uint32_t range, uint32_t * result)]; [result0] is what
    the cell [result] points to holds when the function is entered. *)
Definition lemire_rng (fuel : nat) (range result0 : Z) (w : world)
  : option outcome :=
  if range =? 0 then Some (Outcome 1 result0 w)
  else
    let '(n, w1) := get_random_uniform_32bits_integer w in
    let '(i, j) := compute_interval n range in
    if j >=? range then Some (Outcome 0 i w1)
    else
      let bound := rejection_interval_upper_bound range in
      match rejection_loop fuel range bound i j w1 with
      | Some (i', _, w2) => Some (Outcome 0 i' w2)
      | None => None
      end.

(** *** The variant without the fast-accept branch

    [lemire_rng] with the block [if (j >= range) { ... }] removed, as the
    comment above that block describes it ("not required"): the threshold
    is always computed and the rejection test always run. *)
Definition lemire_rng_no_fast_accept (fuel : nat) (range result0 : Z)
    (w : world) : option outcome :=
  if range =? 0 then Some (Outcome 1 result0 w)
  else
    let '(n, w1) := get_random_uniform_32bits_integer w in
    let '(i, j) := compute_interval n range in
    let bound := rejection_interval_upper_bound range in
    match rejection_loop fuel range bound i j w1 with
    | Some (i', _, w2) => Some (Outcome 0 i' w2)
    | None => None
    end.

(** *** The sequence of draws seen from a state *)

(** The state after [k] more draws. *)
Definition advance (w : world) (k : nat) : world :=
  {| rand_calls := rand_calls w + 2 * k; draws := draws w + k |}%nat.

(** The [k]-th 32-bit value the generator yields from state [w] on. *)
Definition draw (w : world) (k : nat) : Z :=
  fst (get_random_uniform_32bits_integer (advance w k)).

(** *** The driver

    The loop of [main], with its bound and the variables it reads as
    arguments:
    <<
    for (int i=0; i<10; ++i) {
        lemire_rng(range, &result);
        printf("Random number in [0, %u[: %u\n", range, result);
    }
    >>
    [iters] counts the iterations left and [result] is the variable
    [result] of [main]; the value [lemire_rng] returns is dropped, as in the
    source.  The lines written are collected in order; [fuel] is the fuel of
    each call of [lemire_rng]. *)
Fixpoint main_loop (fuel iters : nat) (range result : Z) (w : world)
  : option (list String.string * Z * world) :=
  match iters with
  | O => Some ([], result, w)
  | S iters' =>
      match lemire_rng fuel range result w with
      | None => None
      | Some o =>
          let line := Stdio.printf_random range (cell o) in
          match main_loop fuel iters' range (cell o) (after o) with
          | Some (lines, result', w') => Some (line :: lines, result', w')
          | None => None
          end
      end
  end.

End Source.

(** [int main(void)].  [srand(time(NULL))] selects the sequence [rand()]
    yields from then on: [libc_rand seed] is that sequence for the seed
    [seed], and [now] is what [time(NULL)] returns, converted to the
    [unsigned int] that [srand] takes.  The result is the value returned
    and the lines written. *)
Definition main (libc_rand : Z -> nat -> Z) (now : Z) (fuel : nat)
  : option (Z * list String.string) :=
  let range := 12345 in
  let result := 0 in
  let rand := libc_rand (Uint.u32 now) in
  match main_loop rand fuel 10 range result (World 0 0) with
  | Some (lines, _, _) => Some (0, lines)
  | None => None
  end.

(** ** The quantities of the algorithm's description *)

(** [high = (n * range) >> 32] and [low = (n * range) mod 2^32]. *)
Definition high (range n : Z) : Z := fst (compute_interval n range).
Definition low (range n : Z) : Z := snd (compute_interval n range).

(** The rejection threshold [2^32 mod range]. *)
Definition threshold (range : Z) : Z := 2 ^ 32 mod range.

(** A draw is accepted when its [low] is not below the threshold. *)
Definition accepted (range n : Z) : bool := threshold range <=? low range n.

(** [k] is the index of the first accepted draw from state [w] on. *)
Definition first_accepted (rand : nat -> Z) (range : Z) (w : world) (k : nat)
  : Prop :=
  accepted range (draw rand w k) = true /\
  forall m, (m < k)%nat -> accepted range (draw rand w m) = false.

(** The accepted ones among the first [m] draws from state [w] on, in the
    order of the draws. *)
Definition accepted_draws (rand : nat -> Z) (range : Z) (w : world) (m : nat)
  : list Z :=
  filter (accepted range) (map (draw rand w) (seq 0 m)).

(** A sequence of [rand()] values that is [r1] at call [p] and [r2] at
    every other call. *)
Definition rand_at (p : nat) (r1 r2 : Z) (k : nat) : Z :=
  if Nat.eqb k p then r1 else r2.

(** All the 32-bit values, in increasing order. *)
Definition values_below (N : Z) : list Z := map Z.of_nat (seq 0 (Z.to_nat N)).

(** How many [n] in [[0, 2^32)] are accepted and mapped to [v]. *)
Definition count_accepted_to (range v : Z) : nat :=
  length (filter (fun n => accepted range n && (high range n =? v))
                 (values_below (2 ^ 32))).

(** How many [n] in [[0, 2^32)] are accepted. *)
Definition count_accepted (range : Z) : nat :=
  length (filter (accepted range) (values_below (2 ^ 32))).

(** The first [n] accepted for the value [v]: the accepted values mapped
    to [v] are the [2^32 / range] values from [window_start range v] on. *)
Definition window_start (range v : Z) : Z :=
  v * (2 ^ 32 / range)
  + ((v + 1) * (2 ^ 32 mod range) + range - 1) / range.

(** ** Generators for concrete runs *)

(** A generator whose [rand()] returns [a] on even calls and [b] on odd
    calls. *)
Definition rand_alternating (a b : Z) (k : nat) : Z :=
  if Nat.even k then a else b.

(** A generator that replays a script of [rand()] values, then zeros. *)
Definition rand_script (l : list Z) (k : nat) : Z := nth k l 0.

(** The state of a program that has not called [rand()] yet. *)
Definition w0 : world := World 0 0.

(** ** Running the embedding on concrete inputs *)

Example compute_interval_max :
  compute_interval 4294967295 12345 = (12344, 4294954951).
Proof. reflexivity. Qed.

Example draw_max : draw (rand_alternating 2147483647 1) w0 0 = 4294967295.
Proof. reflexivity. Qed.

Example lemire_rng_max :
  lemire_rng (rand_alternating 2147483647 1) 0 12345 77 w0
  = Some (Outcome 0 12344 (World 2 1)).
Proof. reflexivity. Qed.

Example lemire_rng_zero :
  lemire_rng (rand_alternating 2147483647 1) 0 0 77 w0
  = Some (Outcome 1 77 w0).
Proof. reflexivity. Qed.

(** With [range = 3 * 2^30] the threshold is [2^30]; the draw [1] has
    [low = 3 * 2^30] (fast accept), the draw [0] has [low = 0] (rejected). *)
Example threshold_3_2_30 :
  rejection_interval_upper_bound 3221225472 = 1073741824.
Proof. reflexivity. Qed.

Example lemire_rng_stuck :
  lemire_rng (rand_alternating 0 0) 5 3221225472 77 w0 = None.
Proof. reflexivity. Qed.

Module StdioExamples.

Import String.

Example printf_random_7 :
  Stdio.printf_random 12345 7
  = ("Random number in [0, 12345[: 7" ++ Stdio.newline)%string.
Proof. reflexivity. Qed.

(** Two calls with [range = 3 * 2^30]: the draw [0] is rejected, [5] gives
    [3] and [1] gives [0]. *)
Example main_loop_two_calls :
  main_loop (rand_script [0; 0; 5; 0; 1; 0]) 1 2 3221225472 77 w0
  = Some ([("Random number in [0, 3221225472[: 3" ++ Stdio.newline)%string;
           ("Random number in [0, 3221225472[: 0" ++ Stdio.newline)%string],
          0, World 6 3).
Proof. reflexivity. Qed.

(** [main] with a [rand()] that yields [seed + 1000003 * k] at call [k],
    started at time [42]. *)
Example main_run :
  option_map (fun r => (fst r, List.length (snd r), hd EmptyString (snd r)))
    (main (fun seed k => (seed + 1000003 * Z.of_nat k) mod 2 ^ 31) 42 0)
  = Some (0, 10%nat,
          ("Random number in [0, 12345[: 6172" ++ Stdio.newline)%string).
Proof. reflexivity. Qed.

End StdioExamples.

(** ** Arithmetic of the 32-bit operations *)

Lemma u32_range z : 0 <= Uint.u32 z < 2 ^ 32.
Proof. unfold Uint.u32, Uint.wrap. apply Z.mod_pos_bound. lia. Qed.

Lemma u32_small z : 0 <= z < 2 ^ 32 -> Uint.u32 z = z.
Proof. intros H. unfold Uint.u32, Uint.wrap. now apply Z.mod_small. Qed.

Lemma u64_small z : 0 <= z < 2 ^ 64 -> Uint.u64 z = z.
Proof. intros H. unfold Uint.u64, Uint.wrap. now apply Z.mod_small. Qed.

Lemma lor_below_pow2 a b k :
  0 <= k -> 0 <= a < 2 ^ k -> 0 <= b < 2 ^ k -> 0 <= Z.lor a b < 2 ^ k.
Proof.
  intros Hk Ha Hb. split.
  - apply Z.lor_nonneg. lia.
  - destruct (Z.eq_dec (Z.lor a b) 0) as [E | E].
    + rewrite E. apply Z.pow_pos_nonneg; lia.
    + assert (Hpos : 0 < Z.lor a b)
        by (pose proof (proj2 (Z.lor_nonneg a b) (conj (proj1 Ha) (proj1 Hb))); lia).
      assert (Hk' : 0 < k).
      { destruct (Z.eq_dec k 0) as [-> | Nk]; [| lia].
        assert (a = 0) by (change (2 ^ 0) with 1 in Ha; lia).
        assert (b = 0) by (change (2 ^ 0) with 1 in Hb; lia).
        subst a b. now elim E. }
      apply Z.log2_lt_pow2; [exact Hpos |].
      rewrite Z.log2_lor by lia.
      apply Z.max_lub_lt.
      * destruct (Z.eq_dec a 0) as [-> | Na]; [simpl; lia |].
        apply Z.log2_lt_pow2; lia.
      * destruct (Z.eq_dec b 0) as [-> | Nb]; [simpl; lia |].
        apply Z.log2_lt_pow2; lia.
Qed.

(** Every draw is a 32-bit value, whatever [rand()] returns. *)
Lemma get_random_u32 rand w :
  0 <= fst (get_random_uniform_32bits_integer rand w) < 2 ^ 32.
Proof.
  unfold get_random_uniform_32bits_integer; cbn [fst].
  unfold Uint.or32, Uint.shl32. apply lor_below_pow2; [lia | apply u32_range ..].
Qed.

Lemma draw_u32 rand w k : 0 <= draw rand w k < 2 ^ 32.
Proof. apply get_random_u32. Qed.

Lemma get_random_world rand w :
  snd (get_random_uniform_32bits_integer rand w) = advance w 1.
Proof.
  unfold get_random_uniform_32bits_integer, advance; cbn [snd].
  f_equal; lia.
Qed.

Lemma advance_0 w : advance w 0 = w.
Proof. destruct w; unfold advance; cbn. f_equal; lia. Qed.

Lemma advance_advance w a b : advance (advance w a) b = advance w (a + b).
Proof. unfold advance; cbn. f_equal; lia. Qed.

Lemma draw_advance rand w a b :
  draw rand (advance w a) b = draw rand w (a + b).
Proof. unfold draw. now rewrite advance_advance. Qed.

(** The multiply-and-split step computes the quotient and the remainder of
    [n * range] by [2^32]; nothing wraps. *)
Lemma compute_interval_spec n range :
  0 <= n < 2 ^ 32 -> 0 <= range < 2 ^ 32 ->
  compute_interval n range = ((n * range) / 2 ^ 32, (n * range) mod 2 ^ 32).
Proof.
  intros Hn Hr. unfold compute_interval, Uint.mul64, Uint.shr.
  assert (Hp : 0 <= n * range < 2 ^ 64) by nia.
  rewrite (u64_small n), (u64_small range), (u64_small (n * range)) by lia.
  rewrite Z.shiftr_div_pow2 by lia.
  f_equal.
  apply u32_small. split.
  - apply Z.div_pos; lia.
  - apply Z.div_lt_upper_bound; lia.
Qed.

Lemma high_spec n range :
  0 <= n < 2 ^ 32 -> 0 <= range < 2 ^ 32 ->
  high range n = (n * range) / 2 ^ 32.
Proof. intros. unfold high. now rewrite compute_interval_spec. Qed.

Lemma low_spec n range :
  0 <= n < 2 ^ 32 -> 0 <= range < 2 ^ 32 ->
  low range n = (n * range) mod 2 ^ 32.
Proof. intros. unfold low. now rewrite compute_interval_spec. Qed.

Lemma compute_interval_high_low n range :
  compute_interval n range = (high range n, low range n).
Proof. unfold high, low. now destruct (compute_interval n range). Qed.

(** [high] is below [range]. *)
Lemma high_bound n range :
  0 <= n < 2 ^ 32 -> 0 < range < 2 ^ 32 -> 0 <= high range n < range.
Proof.
  intros Hn Hr. rewrite high_spec by lia. split.
  - apply Z.div_pos; nia.
  - apply Z.div_lt_upper_bound; nia.
Qed.

Lemma threshold_bound range : 0 < range -> 0 <= threshold range < range.
Proof. intros H. unfold threshold. now apply Z.mod_pos_bound. Qed.

(** The 32-bit computation [(-range) % range] yields [2^32 mod range]. *)
Lemma upper_bound_is_threshold range :
  0 < range < 2 ^ 32 ->
  rejection_interval_upper_bound range = threshold range.
Proof.
  intros Hr.
  unfold rejection_interval_upper_bound, Uint.rem32, Uint.neg32, threshold.
  assert (E : Uint.u32 (- range) = 2 ^ 32 - range).
  { unfold Uint.u32, Uint.wrap.
    replace (- range) with (2 ^ 32 - range + (-1) * 2 ^ 32) by lia.
    rewrite Z.mod_add by lia.
    apply Z.mod_small. lia. }
  rewrite E.
  replace (2 ^ 32 - range) with (2 ^ 32 + (-1) * range) by lia.
  rewrite Z.mod_add by lia.
  apply u32_small.
  pose proof (Z.mod_pos_bound (2 ^ 32) range). lia.
Qed.

(** ** The rejection loop and the sequence of draws *)

Section Loop.

Variable rand : nat -> Z.
Variable range : Z.
Hypothesis range_u32 : 0 < range < 2 ^ 32.

Lemma get_random_eq w :
  get_random_uniform_32bits_integer rand w = (draw rand w 0, advance w 1).
Proof.
  unfold draw. rewrite advance_0.
  rewrite <- get_random_world with (rand := rand).
  now destruct (get_random_uniform_32bits_integer rand w).
Qed.

Lemma accepted_true n : accepted range n = true <-> threshold range <= low range n.
Proof. unfold accepted. apply Z.leb_le. Qed.

Lemma accepted_false n : accepted range n = false <-> low range n < threshold range.
Proof. unfold accepted. rewrite Z.leb_gt. reflexivity. Qed.

(** The loop exits at once, with any fuel, when [j] is not below the
    bound. *)
Lemma rejection_loop_exit fuel bound i j w :
  bound <= j -> rejection_loop rand fuel range bound i j w = Some (i, j, w).
Proof.
  intros H. destruct fuel; cbn [rejection_loop];
    now rewrite (proj2 (Z.ltb_ge j bound) H).
Qed.

(** One execution of the body. *)
Lemma rejection_loop_body fuel bound i j w :
  j < bound ->
  rejection_loop rand (S fuel) range bound i j w
  = rejection_loop rand fuel range bound
      (high range (draw rand w 0)) (low range (draw rand w 0)) (advance w 1).
Proof.
  intros H. cbn [rejection_loop]. rewrite (proj2 (Z.ltb_lt j bound) H).
  rewrite get_random_eq, compute_interval_high_low. reflexivity.
Qed.

Lemma rejection_loop_no_fuel bound i j w :
  j < bound -> rejection_loop rand 0 range bound i j w = None.
Proof. intros H. cbn. now rewrite (proj2 (Z.ltb_lt j bound) H). Qed.

(** Entered with a rejected value, the loop stops at the first accepted
    draw, provided the fuel reaches it. *)
Lemma rejection_loop_first k : forall fuel i j w,
  j < threshold range ->
  first_accepted rand range w k ->
  (k < fuel)%nat ->
  rejection_loop rand fuel range (threshold range) i j w
  = Some (high range (draw rand w k), low range (draw rand w k),
          advance w (S k)).
Proof.
  induction k as [| k IH]; intros fuel i j w Hj [Hk Hlt] Hf;
    (destruct fuel as [| fuel]; [lia |]);
    rewrite rejection_loop_body by assumption.
  - apply rejection_loop_exit. now apply accepted_true.
  - rewrite (IH fuel _ _ (advance w 1)).
    + rewrite draw_advance, advance_advance. reflexivity.
    + apply accepted_false. apply Hlt. lia.
    + split.
      * now rewrite draw_advance.
      * intros m Hm. rewrite draw_advance. apply Hlt. lia.
    + lia.
Qed.

(** Conversely, a loop that stops has stopped at the first accepted
    draw, within its fuel. *)
Lemma rejection_loop_stops fuel : forall i j w r,
  j < threshold range ->
  rejection_loop rand fuel range (threshold range) i j w = Some r ->
  exists k, (k < fuel)%nat /\ first_accepted rand range w k /\
    r = (high range (draw rand w k), low range (draw rand w k),
         advance w (S k)).
Proof.
  induction fuel as [| fuel IH]; intros i j w r Hj Hr.
  - now rewrite rejection_loop_no_fuel in Hr.
  - rewrite rejection_loop_body in Hr by assumption.
    destruct (Z.lt_ge_cases (low range (draw rand w 0)) (threshold range))
      as [Hlow | Hlow].
    + destruct (IH _ _ _ _ Hlow Hr) as (k & Hk & [Ha Hb] & ->).
      exists (S k). split; [lia |]. split; [split |].
      * now rewrite draw_advance in Ha.
      * intros [| m] Hm.
        -- now apply accepted_false.
        -- specialize (Hb m ltac:(lia)). now rewrite draw_advance in Hb.
      * now rewrite draw_advance, advance_advance.
    + rewrite rejection_loop_exit in Hr by assumption.
      exists 0%nat. split; [lia |]. split; [split |].
      * now apply accepted_true.
      * intros m Hm. lia.
      * now injection Hr as <-.
Qed.

(** The first test of [lemire_rng], [j >= range], accepts only accepted
    draws. *)
Lemma fast_accept_accepted n : range <= low range n -> accepted range n = true.
Proof.
  intros H. apply accepted_true.
  pose proof (threshold_bound range ltac:(lia)). lia.
Qed.

Lemma first_accepted_unique w k k' :
  first_accepted rand range w k -> first_accepted rand range w k' -> k = k'.
Proof.
  intros [Ha Hb] [Ha' Hb'].
  destruct (Nat.lt_trichotomy k k') as [L | [E | L]]; [| exact E |].
  - rewrite (Hb' k L) in Ha. discriminate.
  - rewrite (Hb k' L) in Ha'. discriminate.
Qed.

Lemma lemire_rng_unfold fuel result0 w :
  lemire_rng rand fuel range result0 w =
  let n := draw rand w 0 in
  if low range n >=? range then Some (Outcome 0 (high range n) (advance w 1))
  else
    match rejection_loop rand fuel range (threshold range)
            (high range n) (low range n) (advance w 1) with
    | Some (i', _, w2) => Some (Outcome 0 i' w2)
    | None => None
    end.
Proof.
  unfold lemire_rng.
  rewrite (proj2 (Z.eqb_neq range 0)) by lia.
  rewrite get_random_eq, compute_interval_high_low.
  now rewrite upper_bound_is_threshold.
Qed.

(** [lemire_rng] returns the [high] of the first accepted draw, having
    consumed the draws up to it, whenever the fuel reaches that draw. *)
Lemma lemire_rng_first fuel result0 w k :
  first_accepted rand range w k ->
  (k <= fuel)%nat ->
  lemire_rng rand fuel range result0 w
  = Some (Outcome 0 (high range (draw rand w k)) (advance w (S k))).
Proof.
  intros Hk Hf. rewrite lemire_rng_unfold. cbv zeta.
  destruct (Z.geb_spec (low range (draw rand w 0)) range) as [Hfast | Hslow].
  - assert (k = 0)%nat as ->.
    { apply (first_accepted_unique w); [exact Hk |].
      split; [now apply fast_accept_accepted | intros m Hm; lia]. }
    reflexivity.
  - destruct k as [| k].
    + destruct Hk as [Ha _]. apply accepted_true in Ha.
      now rewrite rejection_loop_exit.
    + destruct Hk as [Ha Hb].
      rewrite (rejection_loop_first k).
      * now rewrite draw_advance, advance_advance.
      * apply accepted_false. apply Hb. lia.
      * split; [now rewrite draw_advance |].
        intros m Hm. rewrite draw_advance. apply Hb. lia.
      * lia.
Qed.

(** Conversely, every result of [lemire_rng] is of that form. *)
Lemma lemire_rng_returns fuel result0 w o :
  lemire_rng rand fuel range result0 w = Some o ->
  exists k, (k <= fuel)%nat /\ first_accepted rand range w k /\
    o = Outcome 0 (high range (draw rand w k)) (advance w (S k)).
Proof.
  rewrite lemire_rng_unfold. cbv zeta.
  destruct (Z.geb_spec (low range (draw rand w 0)) range) as [Hfast | Hslow].
  - intros [= <-]. exists 0%nat. split; [lia |]. split; [| reflexivity].
    split; [now apply fast_accept_accepted | intros m Hm; lia].
  - destruct (Z.lt_ge_cases (low range (draw rand w 0)) (threshold range))
      as [Hlow | Hlow].
    + destruct (rejection_loop rand fuel range (threshold range) _ _ _)
        as [[[i' j'] w2] |] eqn:E; [| discriminate].
      intros [= <-].
      destruct (rejection_loop_stops _ _ _ _ _ Hlow E) as (k & Hk & [Ha Hb] & Er).
      injection Er as -> _ ->.
      exists (S k). split; [lia |]. split; [split |].
      * now rewrite draw_advance in Ha.
      * intros [| m] Hm.
        -- now apply accepted_false.
        -- specialize (Hb m ltac:(lia)). now rewrite draw_advance in Hb.
      * now rewrite draw_advance, advance_advance.
    + rewrite rejection_loop_exit by assumption.
      intros [= <-]. exists 0%nat. split; [lia |]. split; [| reflexivity].
      split; [now apply accepted_true | intros m Hm; lia].
Qed.

End Loop.

(** ** Counting the accepted draws *)

(** [(c + r - 1) / r] is the ceiling of [c / r]. *)
Lemma ceil_div_le c r x : 0 < r -> (c <= x * r <-> (c + r - 1) / r <= x).
Proof.
  intros Hr.
  pose proof (Z.mul_div_le (c + r - 1) r Hr).
  pose proof (Z.mul_succ_div_gt (c + r - 1) r Hr).
  split; nia.
Qed.

(** The products [n * range] that fall in the accept part of block [v] are
    those of a run of [W / range] consecutive [n]. *)
Lemma accept_window W range v n :
  0 < range ->
  let q := W / range in
  let t := W mod range in
  let k := ((v + 1) * t + range - 1) / range in
  v * W + t <= n * range < (v + 1) * W <-> v * q + k <= n < (v + 1) * q + k.
Proof.
  intros Hr q t k.
  assert (EW : W = range * q + t) by (apply Z.div_mod; lia).
  pose proof (ceil_div_le ((v + 1) * t) range (n - v * q) Hr) as L.
  pose proof (ceil_div_le ((v + 1) * t) range (n - (v + 1) * q) Hr) as R.
  fold k in L, R.
  replace ((n - v * q) * range) with (n * range - v * (range * q)) in L by ring.
  replace ((n - (v + 1) * q) * range)
    with (n * range - (v + 1) * (range * q)) in R by ring.
  rewrite EW at 1 2.
  lia.
Qed.

(** A product lies in the accept part of block [v] exactly when its high
    word is [v] and its low word is not below the threshold. *)
Lemma block_split W m v t :
  0 < W -> 0 <= t ->
  (t <= m mod W /\ m / W = v) <-> v * W + t <= m < (v + 1) * W.
Proof.
  intros HW Ht.
  pose proof (Z.div_mod m W ltac:(lia)) as E.
  pose proof (Z.mod_pos_bound m W HW) as B.
  split.
  - intros [H1 <-]. lia.
  - intros [H1 H2].
    assert (Ev : m / W = v) by (symmetry; apply (Z.div_unique m W v (m - v * W)); lia).
    split; [| exact Ev]. rewrite Ev in E. lia.
Qed.

(** Counting the members of an interval in an initial segment of the
    naturals. *)
Lemma count_interval (P : Z -> bool) (A B M : nat) :
  (A <= B)%nat ->
  (forall n, (n < M)%nat -> P (Z.of_nat n) = true <-> (A <= n < B)%nat) ->
  forall N, (N <= M)%nat ->
  length (filter P (map Z.of_nat (seq 0 N))) = (Nat.min N B - Nat.min N A)%nat.
Proof.
  intros HAB HP. induction N as [| N IH]; intros HN.
  - reflexivity.
  - rewrite seq_S, map_app, filter_app, length_app, IH by lia.
    cbn [Nat.add map filter].
    specialize (HP N ltac:(lia)).
    destruct (P (Z.of_nat N)); cbn [length].
    + assert (A <= N < B)%nat by now apply HP. lia.
    + assert (~ (A <= N < B)%nat) by (intros C; apply HP in C; discriminate).
      lia.
Qed.

(** Two predicates that never hold together are counted separately. *)
Lemma count_disjoint (P Q : Z -> bool) (l : list Z) :
  (forall x, In x l -> P x && Q x = false) ->
  length (filter (fun x => P x || Q x) l)
  = (length (filter P l) + length (filter Q l))%nat.
Proof.
  induction l as [| x l IH]; intros H; [reflexivity |].
  cbn [filter].
  pose proof (H x (or_introl eq_refl)) as Hx.
  rewrite Nat.add_comm.
  destruct (P x), (Q x); try discriminate; cbn [orb length];
    rewrite IH by (intros y Hy; apply H; now right); lia.
Qed.

Lemma filter_none (l : list Z) : filter (fun _ : Z => false) l = [].
Proof. induction l as [| x l IH]; [reflexivity | exact IH]. Qed.

(** If every block [u < r] holds [q] of the members of [l] that satisfy
    [A], the blocks below [v] hold [v * q] of them. *)
Lemma count_blocks (A : Z -> bool) (h : Z -> Z) (l : list Z) (r q : Z) :
  (forall n, In n l -> 0 <= h n) ->
  (forall u, 0 <= u < r ->
     Z.of_nat (length (filter (fun n => A n && (h n =? u)) l)) = q) ->
  forall v : nat, Z.of_nat v <= r ->
  Z.of_nat (length (filter (fun n => A n && (h n <? Z.of_nat v)) l))
  = Z.of_nat v * q.
Proof.
  intros Hh Hq. induction v as [| v IH]; intros Hv.
  - rewrite (filter_ext_in _ (fun _ => false)).
    + now rewrite filter_none.
    + intros n Hn. specialize (Hh n Hn).
      rewrite andb_false_iff. right. apply Z.ltb_ge.
      change (Z.of_nat 0) with 0. lia.
  - rewrite (filter_ext _
      (fun n => (A n && (h n <? Z.of_nat v)) || (A n && (h n =? Z.of_nat v)))).
    + rewrite count_disjoint.
      * rewrite Nat2Z.inj_add, IH, Hq by lia. lia.
      * intros n _.
        destruct (Z.ltb_spec (h n) (Z.of_nat v)), (Z.eqb_spec (h n) (Z.of_nat v));
          try lia; now rewrite ?andb_false_r.
    + intros n. rewrite <- andb_orb_distrib_r. f_equal.
      destruct (Z.ltb_spec (h n) (Z.of_nat (S v))),
               (Z.ltb_spec (h n) (Z.of_nat v)),
               (Z.eqb_spec (h n) (Z.of_nat v));
        try reflexivity; lia.
Qed.

Lemma values_below_spec N n : In n (values_below N) <-> 0 <= n < N.
Proof.
  unfold values_below. rewrite in_map_iff. split.
  - intros (k & <- & Hk). apply in_seq in Hk. lia.
  - intros H. exists (Z.to_nat n). split; [lia |]. apply in_seq. lia.
Qed.

Section Counting.

Variable range : Z.
Hypothesis range_u32 : 0 < range < 2 ^ 32.

Lemma accepted_to_window v n :
  0 <= n < 2 ^ 32 ->
  accepted range n && (high range n =? v) = true
  <-> window_start range v <= n < window_start range v + 2 ^ 32 / range.
Proof.
  intros Hn. rewrite andb_true_iff, Z.eqb_eq, accepted_true.
  rewrite low_spec, high_spec by lia. unfold threshold.
  rewrite block_split
    by (try apply Z.mod_pos_bound; lia).
  rewrite (accept_window (2 ^ 32) range v n) by lia.
  unfold window_start. lia.
Qed.

Lemma quotient_pos : 1 <= 2 ^ 32 / range.
Proof. apply Z.div_le_lower_bound; lia. Qed.

Lemma window_in_range v :
  0 <= v < range ->
  0 <= window_start range v /\ window_start range v + 2 ^ 32 / range <= 2 ^ 32.
Proof.
  intros Hv. pose proof quotient_pos as Hq.
  pose proof (Z.mod_pos_bound (2 ^ 32) range ltac:(lia)) as Ht.
  split.
  - unfold window_start.
    assert (0 <= ((v + 1) * (2 ^ 32 mod range) + range - 1) / range)
      by (apply Z.div_pos; nia).
    nia.
  - pose proof (accept_window (2 ^ 32) range v
                  (window_start range v + 2 ^ 32 / range - 1) ltac:(lia)) as H.
    cbv zeta in H. fold (window_start range v) in H.
    assert (Hin : (window_start range v + 2 ^ 32 / range - 1) * range < (v + 1) * 2 ^ 32).
    { apply H. unfold window_start. lia. }
    nia.
Qed.

Lemma count_window_eq v :
  0 <= v < range ->
  Z.of_nat (length (filter (fun n => accepted range n && (high range n =? v))
                           (values_below (2 ^ 32))))
  = 2 ^ 32 / range.
Proof.
  intros Hv. destruct (window_in_range v Hv) as [Ha Hb].
  pose proof quotient_pos as Hq.
  unfold values_below.
  rewrite (count_interval _ (Z.to_nat (window_start range v))
             (Z.to_nat (window_start range v + 2 ^ 32 / range))
             (Z.to_nat (2 ^ 32))); [lia | lia | | lia].
  intros n Hn. rewrite accepted_to_window by lia. lia.
Qed.

(** The accepted draws mapped below [v], block after block. *)
Lemma count_accepted_below (v : nat) :
  Z.of_nat v <= range ->
  Z.of_nat (length (filter (fun n => accepted range n
                                     && (high range n <? Z.of_nat v))
                           (values_below (2 ^ 32))))
  = Z.of_nat v * (2 ^ 32 / range).
Proof.
  apply (count_blocks (accepted range) (high range)).
  - intros n Hn.
    apply (high_bound n range (proj1 (values_below_spec (2 ^ 32) n) Hn)
             range_u32).
  - intros u Hu. exact (count_window_eq u Hu).
Qed.

Lemma count_accepted_eq :
  Z.of_nat (count_accepted range) = range * (2 ^ 32 / range).
Proof.
  unfold count_accepted.
  rewrite (filter_ext_in _
    (fun n => accepted range n && (high range n <? Z.of_nat (Z.to_nat range)))).
  - rewrite count_accepted_below by lia. lia.
  - intros n Hn.
    pose proof (high_bound n range (proj1 (values_below_spec (2 ^ 32) n) Hn)
                  range_u32) as Hh.
    clear Hn.
    rewrite (proj2 (Z.ltb_lt _ _)) by lia. symmetry. apply andb_true_r.
Qed.

End Counting.

(** ** Further facts used by the properties below *)

Lemma accepted_arith range n :
  0 <= n < 2 ^ 32 -> 0 <= range < 2 ^ 32 ->
  accepted range n = (2 ^ 32 mod range <=? (n * range) mod 2 ^ 32).
Proof. intros Hn Hr. unfold accepted, threshold. now rewrite low_spec. Qed.

Lemma high_shiftr range n :
  0 <= n < 2 ^ 32 -> 0 <= range < 2 ^ 32 ->
  high range n = Z.shiftr (n * range) 32.
Proof.
  intros Hn Hr. rewrite high_spec by assumption.
  now rewrite Z.shiftr_div_pow2 by lia.
Qed.

Lemma low_nonneg range n : 0 <= low range n.
Proof. unfold low, compute_interval; cbn [snd]. apply u32_range. Qed.

Lemma pow2_u32 k : 0 <= k < 32 -> 0 < 2 ^ k < 2 ^ 32.
Proof.
  intros Hk. split.
  - apply Z.pow_pos_nonneg; lia.
  - apply Z.pow_lt_mono_r; lia.
Qed.

(** [2^32] is a multiple of every power of two a [uint32_t] can hold. *)
Lemma threshold_pow2 k : 0 <= k < 32 -> threshold (2 ^ k) = 0.
Proof.
  intros Hk. unfold threshold.
  replace 32 with ((32 - k) + k) at 1 by lia.
  rewrite Z.pow_add_r by lia.
  apply Z.mod_mul. pose proof (pow2_u32 k Hk). lia.
Qed.

Lemma pow2_exponent range k :
  0 < range < 2 ^ 32 -> 0 <= k -> range = 2 ^ k -> 0 <= k < 32.
Proof.
  intros Hr Hk ->. split; [exact Hk |].
  apply (Z.pow_lt_mono_r_iff 2); lia.
Qed.

(** Among the first draws, either none is accepted or one is. *)
Lemma accepted_before rand range w k :
  (forall m, (m < k)%nat -> accepted range (draw rand w m) = false) \/
  (exists m, (m < k)%nat /\ accepted range (draw rand w m) = true).
Proof.
  induction k as [| k [IH | (m & Hm & Ha)]].
  - left. intros m Hm. lia.
  - destruct (accepted range (draw rand w k)) eqn:E.
    + right. exists k. split; [lia | exact E].
    + left. intros m Hm.
      destruct (Nat.eq_dec m k) as [-> | Ne]; [exact E | apply IH; lia].
  - right. exists m. split; [lia | exact Ha].
Qed.

(** An accepted draw in the sequence gives a first one. *)
Lemma first_accepted_exists rand range w k :
  accepted range (draw rand w k) = true ->
  exists k0, (k0 <= k)%nat /\ first_accepted rand range w k0.
Proof.
  induction k as [k IH] using lt_wf_ind. intros Ha.
  destruct (accepted_before rand range w k) as [Hnone | (m & Hm & Hma)].
  - exists k. split; [lia |]. split; assumption.
  - destruct (IH m Hm Hma) as (k0 & Hk0 & Hf).
    exists k0. split; [lia | exact Hf].
Qed.

(** More than half of the 32-bit values are accepted. *)
Lemma count_accepted_majority range :
  0 < range < 2 ^ 32 ->
  Z.of_nat (count_accepted range) = 2 ^ 32 - threshold range /\
  2 ^ 31 < Z.of_nat (count_accepted range).
Proof.
  intros Hr. rewrite (count_accepted_eq range Hr). unfold threshold.
  pose proof (Z.div_mod (2 ^ 32) range ltac:(lia)) as E.
  pose proof (Z.mod_pos_bound (2 ^ 32) range ltac:(lia)) as B.
  pose proof (quotient_pos range Hr) as Q.
  change (2 ^ 31) with 2147483648.
  change (2 ^ 32) with 4294967296 in *.
  split; nia.
Qed.

(** Without an accepted draw the call has no result: with [range = 3 * 2^30]
    and a [rand()] that always returns [0], every draw is [0], whose [low]
    is [0], below the threshold [2^30]. *)
Lemma lemire_rng_needs_accepted_draw fuel result0 w :
  lemire_rng (fun _ => 0) fuel 3221225472 result0 w = None.
Proof.
  destruct (lemire_rng (fun _ => 0) fuel 3221225472 result0 w) as [o |] eqn:E;
    [| reflexivity].
  apply lemire_rng_returns in E; [| lia].
  destruct E as (k & _ & [Ha _] & _).
  discriminate Ha.
Qed.

(** ** Properties of [lemire_rng] *)

(** C1 (exact uniformity of the accepted mapping).  For every [range] with
    [0 < range < 2^32]: on 32-bit values [accepted] is the test
    [(n * range) mod 2^32 >= 2^32 mod range] and [high] is
    [(n * range) >> 32]; for every [v] in [[0, range)] the number of 32-bit
    values [n] that are accepted and mapped to [v] is exactly
    [2^32 / range]; the accepted values are [range * (2^32 / range)] in all,
    so each [v] is the image of the same share, one in [range], of them;
    whatever [lemire_rng] stores is the [high] of the first accepted draw of
    the sequence it consumed; and [lemire_rng] does return [0] and store the
    [high] of the first accepted draw, having consumed the draws up to it,
    whenever there is one and the fuel reaches it.  So the value returned is
    the image by [high] of the first accepted draw, which takes each value
    of [[0, range)] for the same number of accepted draws. *)
Theorem accepted_mapping_uniform (range : Z) :
  0 < range < 2 ^ 32 ->
  (forall n, 0 <= n < 2 ^ 32 ->
     accepted range n = (2 ^ 32 mod range <=? (n * range) mod 2 ^ 32) /\
     high range n = Z.shiftr (n * range) 32) /\
  (forall v, 0 <= v < range ->
     Z.of_nat (count_accepted_to range v) = 2 ^ 32 / range) /\
  Z.of_nat (count_accepted range) = range * (2 ^ 32 / range) /\
  (forall rand fuel result0 w o,
     lemire_rng rand fuel range result0 w = Some o ->
     exists k, first_accepted rand range w k /\
               cell o = high range (draw rand w k)) /\
  (forall rand fuel result0 w k,
     first_accepted rand range w k ->
     (k <= fuel)%nat ->
     lemire_rng rand fuel range result0 w
     = Some (Outcome 0 (high range (draw rand w k)) (advance w (S k)))).
Proof.
  intros Hr. split; [| split; [| split; [| split]]].
  - intros n Hn. split.
    + apply accepted_arith; lia.
    + apply high_shiftr; lia.
  - intros v Hv. unfold count_accepted_to. exact (count_window_eq range Hr v Hv).
  - exact (count_accepted_eq range Hr).
  - intros rand fuel result0 w o Ho.
    destruct (lemire_rng_returns rand range Hr fuel result0 w o Ho)
      as (k & _ & Hk & ->).
    exists k. split; [exact Hk | reflexivity].
  - intros rand fuel result0 w k Hk Hf.
    exact (lemire_rng_first rand range Hr fuel result0 w k Hk Hf).
Qed.

(** [range = 12345], threshold [6001]: the draw [0] has [low = 0] and is
    rejected; the draw [347912] has [low = 6344], below [range] and not
    below the threshold, and [high = 1]. *)
Lemma accepted_mapping_uniform_witness :
  Z.of_nat (count_accepted_to 12345 7) = 2 ^ 32 / 12345 /\
  lemire_rng (rand_script [0; 0; 347912; 0]) 1 12345 77 w0
  = Some (Outcome 0 (high 12345 (draw (rand_script [0; 0; 347912; 0]) w0 1))
            (advance w0 2)).
Proof.
  destruct (accepted_mapping_uniform 12345 ltac:(lia))
    as (_ & Hcount & _ & _ & Htotal).
  split.
  - apply Hcount. lia.
  - clear Hcount. apply Htotal; [| lia].
    split; [reflexivity |].
    intros m Hm. assert (m = 0)%nat as -> by lia. reflexivity.
Defined.

(** C2 (range containment).  For every [range] with [0 < range < 2^32],
    every sequence of [rand()] values and every call that returns,
    [lemire_rng] returns [0] and the value [v] it stores satisfies
    [0 <= v < range]. *)
Theorem range_containment (rand : nat -> Z) (fuel : nat)
    (range result0 : Z) (w : world) (o : outcome) :
  0 < range < 2 ^ 32 ->
  lemire_rng rand fuel range result0 w = Some o ->
  ret o = 0 /\ 0 <= cell o < range.
Proof.
  intros Hr Ho.
  destruct (lemire_rng_returns rand range Hr fuel result0 w o Ho)
    as (k & _ & _ & ->).
  cbn [ret cell]. split; [reflexivity |].
  apply high_bound; [apply draw_u32 | exact Hr].
Qed.

Lemma range_containment_witness :
  ret (Outcome 0 12344 (World 2 1)) = 0 /\
  0 <= cell (Outcome 0 12344 (World 2 1)) < 12345.
Proof.
  apply (range_containment (rand_alternating 2147483647 1) 0 12345 77 w0);
    [lia | reflexivity].
Defined.

(** C3 (zero-range error contract).  With [range = 0], [lemire_rng] returns
    [1] and leaves the state as it found it: no call of the generator, no
    call of [rand()].  A call that returns, returns a non-zero value if and
    only if [range = 0]; with [range <> 0] it returns [0]. *)
Theorem zero_range_error (rand : nat -> Z) (fuel : nat) (result0 : Z)
    (w : world) :
  (exists o, lemire_rng rand fuel 0 result0 w = Some o /\
             ret o = 1 /\ after o = w /\
             draws (after o) = draws w /\
             rand_calls (after o) = rand_calls w) /\
  (forall range o, lemire_rng rand fuel range result0 w = Some o ->
                   (ret o <> 0 <-> range = 0)) /\
  (forall range o, range <> 0 ->
                   lemire_rng rand fuel range result0 w = Some o -> ret o = 0).
Proof.
  assert (Hnz : forall range o, range <> 0 ->
            lemire_rng rand fuel range result0 w = Some o -> ret o = 0).
  { intros range o Hr. unfold lemire_rng.
    rewrite (proj2 (Z.eqb_neq range 0) Hr).
    destruct (get_random_uniform_32bits_integer rand w) as [n w1].
    destruct (compute_interval n range) as [i j].
    destruct (j >=? range); [now intros [= <-] |].
    destruct (rejection_loop rand fuel range _ i j w1) as [[[i' j'] w2] |];
      [now intros [= <-] | discriminate]. }
  split; [| split].
  - exists (Outcome 1 result0 w). repeat split.
  - intros range o Ho. destruct (Z.eq_dec range 0) as [-> | Hr].
    + cbn in Ho. injection Ho as <-. cbn. split; [reflexivity | discriminate].
    + rewrite (Hnz range o Hr Ho). split; [intros C; now elim C | intros C; now elim Hr].
  - exact Hnz.
Qed.

(** C4 (threshold identity).  For every [range] with [0 < range < 2^32] the
    32-bit computation [(-range) % range] equals [2^32 mod range]. *)
Theorem threshold_identity (range : Z) :
  0 < range < 2 ^ 32 ->
  rejection_interval_upper_bound range = 2 ^ 32 mod range.
Proof. intros Hr. exact (upper_bound_is_threshold range Hr). Qed.

Lemma threshold_identity_witness :
  rejection_interval_upper_bound 12345 = 2 ^ 32 mod 12345.
Proof. apply (threshold_identity 12345). lia. Defined.

(** C5 (the fast-accept branch is an optimisation).  For every [range] with
    [0 < range < 2^32] the threshold [2^32 mod range] is at most [range],
    below [range] when [range > 1], and [0] when [range] is a power of two;
    so a [low] that is at least [range] is at least the threshold; and
    [lemire_rng] agrees with the variant without the branch
    [if (j >= range)]: same result or same absence of result with the same
    fuel, same returned value, same stored value, same draws consumed. *)
Theorem fast_accept_is_optimisation (range : Z) :
  0 < range < 2 ^ 32 ->
  threshold range <= range /\
  (1 < range -> threshold range < range) /\
  (forall k, 0 <= k -> range = 2 ^ k -> threshold range = 0) /\
  rejection_interval_upper_bound range = threshold range /\
  (forall lo, range <= lo -> threshold range <= lo) /\
  (forall rand fuel result0 w,
     lemire_rng rand fuel range result0 w
     = lemire_rng_no_fast_accept rand fuel range result0 w).
Proof.
  intros Hr. pose proof (threshold_bound range ltac:(lia)) as Ht.
  repeat split; try lia.
  - intros k Hk E. pose proof (pow2_exponent range k Hr Hk E) as Hk'.
    subst range. now apply threshold_pow2.
  - now apply upper_bound_is_threshold.
  - intros rand fuel result0 w. unfold lemire_rng, lemire_rng_no_fast_accept.
    destruct (range =? 0); [reflexivity |].
    destruct (get_random_uniform_32bits_integer rand w) as [n w1].
    destruct (compute_interval n range) as [i j].
    destruct (Z.geb_spec j range) as [Hj | Hj]; [| reflexivity].
    rewrite rejection_loop_exit; [reflexivity |].
    rewrite upper_bound_is_threshold by exact Hr. lia.
Qed.

Lemma fast_accept_is_optimisation_witness :
  lemire_rng (rand_alternating 2147483647 1) 0 12345 77 w0
  = lemire_rng_no_fast_accept (rand_alternating 2147483647 1) 0 12345 77 w0.
Proof.
  apply (fast_accept_is_optimisation 12345 ltac:(lia)).
Defined.

(** C6 (fast path).  For every [range] with [0 < range < 2^32], if the
    first draw [n] has [(n * range) mod 2^32 >= range], then [lemire_rng]
    returns [0] with any fuel, stores [(n * range) >> 32] and has consumed
    exactly one draw. *)
Theorem fast_path (rand : nat -> Z) (fuel : nat) (range result0 : Z)
    (w : world) :
  0 < range < 2 ^ 32 ->
  range <= (draw rand w 0 * range) mod 2 ^ 32 ->
  exists o,
    lemire_rng rand fuel range result0 w = Some o /\
    ret o = 0 /\
    cell o = Z.shiftr (draw rand w 0 * range) 32 /\
    cell o = high range (draw rand w 0) /\
    draws (after o) = S (draws w) /\
    after o = advance w 1.
Proof.
  intros Hr Hlow. pose proof (draw_u32 rand w 0) as Hn.
  rewrite <- low_spec in Hlow by lia.
  exists (Outcome 0 (high range (draw rand w 0)) (advance w 1)).
  split; [| repeat split].
  - rewrite (lemire_rng_unfold rand range Hr). cbv zeta.
    now rewrite (proj2 (Z.geb_le _ _) Hlow).
  - cbn [cell]. apply high_shiftr; lia.
  - cbn. lia.
Qed.

Lemma fast_path_witness :
  exists o,
    lemire_rng (rand_alternating 2147483647 1) 0 12345 77 w0 = Some o /\
    ret o = 0 /\
    cell o = Z.shiftr (draw (rand_alternating 2147483647 1) w0 0 * 12345) 32 /\
    cell o = high 12345 (draw (rand_alternating 2147483647 1) w0 0) /\
    draws (after o) = S (draws w0) /\
    after o = advance w0 1.
Proof.
  apply (fast_path (rand_alternating 2147483647 1) 0 12345 77 w0).
  - lia.
  - vm_compute. discriminate.
Defined.

(** C7 (rejection).  For every [range] with [0 < range < 2^32], if the
    first draw has [low < 2^32 mod range], then a call that returns has
    consumed at least one more draw, and what it stores is the [high] of the
    first draw of the consumed sequence whose [low] is at least
    [2^32 mod range], the last draw it consumed; and the call does return
    this as soon as the fuel reaches that draw. *)
Theorem rejection_correct (rand : nat -> Z) (range result0 : Z) (w : world) :
  0 < range < 2 ^ 32 ->
  (draw rand w 0 * range) mod 2 ^ 32 < 2 ^ 32 mod range ->
  (forall fuel o,
     lemire_rng rand fuel range result0 w = Some o ->
     exists k,
       (1 <= k)%nat /\
       first_accepted rand range w k /\
       ret o = 0 /\
       cell o = Z.shiftr (draw rand w k * range) 32 /\
       after o = advance w (S k) /\
       (draws w + 2 <= draws (after o))%nat) /\
  (forall k fuel,
     first_accepted rand range w k -> (k <= fuel)%nat ->
     lemire_rng rand fuel range result0 w
     = Some (Outcome 0 (high range (draw rand w k)) (advance w (S k)))).
Proof.
  intros Hr Hlow. split.
  - intros fuel o Ho.
    destruct (lemire_rng_returns rand range Hr fuel result0 w o Ho)
      as (k & _ & Hk & ->).
    exists k. cbn [ret cell after].
    assert (H1 : (1 <= k)%nat).
    { destruct k as [| k]; [| lia].
      destruct Hk as [Ha _].
      rewrite accepted_arith in Ha by (try apply draw_u32; lia).
      apply Z.leb_le in Ha. lia. }
    repeat split; try (exact H1); try apply Hk.
    + apply high_shiftr; [apply draw_u32 | lia].
    + cbn. lia.
  - intros k fuel Hk Hf. now apply lemire_rng_first.
Qed.

(** [range = 3 * 2^30]: the first draw, [0], is rejected; the second, [5],
    has [low = 3 * 2^30] and [high = 3]. *)
Lemma rejection_correct_witness :
  exists k,
    (1 <= k)%nat /\
    first_accepted (rand_script [0; 0; 5; 0]) 3221225472 w0 k /\
    ret (Outcome 0 3 (World 4 2)) = 0 /\
    cell (Outcome 0 3 (World 4 2))
    = Z.shiftr (draw (rand_script [0; 0; 5; 0]) w0 k * 3221225472) 32 /\
    after (Outcome 0 3 (World 4 2)) = advance w0 (S k) /\
    (draws w0 + 2 <= draws (after (Outcome 0 3 (World 4 2))))%nat.
Proof.
  apply (proj1 (rejection_correct (rand_script [0; 0; 5; 0]) 3221225472 77 w0
                  ltac:(lia) ltac:(reflexivity)) 1%nat).
  reflexivity.
Defined.

(** C8 (powers of two).  For [range = 2^k], [0 <= k < 32], the threshold is
    [0], as computed by [(-range) % range] too; the rejection loop returns
    without fuel, that is without executing its body, for any draw; and
    every call returns [0] with any fuel, storing the [high] of the first
    draw and having consumed exactly that draw. *)
Theorem power_of_two (rand : nat -> Z) (fuel : nat) (k result0 : Z)
    (w : world) :
  0 <= k < 32 ->
  threshold (2 ^ k) = 0 /\
  rejection_interval_upper_bound (2 ^ k) = 0 /\
  (forall n w',
     rejection_loop rand 0 (2 ^ k) (rejection_interval_upper_bound (2 ^ k))
       (high (2 ^ k) n) (low (2 ^ k) n) w'
     = Some (high (2 ^ k) n, low (2 ^ k) n, w')) /\
  lemire_rng rand fuel (2 ^ k) result0 w
  = Some (Outcome 0 (high (2 ^ k) (draw rand w 0)) (advance w 1)) /\
  draws (advance w 1) = S (draws w).
Proof.
  intros Hk. pose proof (pow2_u32 k Hk) as Hr.
  pose proof (threshold_pow2 k Hk) as Ht.
  assert (Hb : rejection_interval_upper_bound (2 ^ k) = 0)
    by now rewrite upper_bound_is_threshold.
  split; [exact Ht |]. split; [exact Hb |]. split; [| split].
  - intros n w'. apply rejection_loop_exit. rewrite Hb. apply low_nonneg.
  - apply lemire_rng_first; [exact Hr | | lia].
    split; [| intros m Hm; lia].
    apply accepted_true. rewrite Ht. apply low_nonneg.
  - cbn. lia.
Qed.

Lemma power_of_two_witness :
  lemire_rng (rand_alternating 2147483647 1) 0 (2 ^ 4) 77 w0
  = Some (Outcome 0 (high (2 ^ 4) (draw (rand_alternating 2147483647 1) w0 0))
            (advance w0 1)).
Proof.
  apply (power_of_two (rand_alternating 2147483647 1) 0 4 77 w0). lia.
Defined.

(** C9 (termination of the rejection loop).  For every [range] with
    [0 < range < 2^32] and every sequence of draws with an accepted value
    at some index [k], there is a first accepted draw, at an index
    [k0 <= k], and with any fuel of at least [k0] [lemire_rng] returns [0],
    stores the [high] of that draw and has consumed the draws up to it and
    no other.  As to how often a draw is accepted: [2^32 - 2^32 mod range]
    of the [2^32] values are, more than half of them. *)
Theorem rejection_loop_terminates (rand : nat -> Z) (range result0 : Z)
    (w : world) (k : nat) :
  0 < range < 2 ^ 32 ->
  accepted range (draw rand w k) = true ->
  (exists k0,
     (k0 <= k)%nat /\
     first_accepted rand range w k0 /\
     forall fuel, (k0 <= fuel)%nat ->
       lemire_rng rand fuel range result0 w
       = Some (Outcome 0 (high range (draw rand w k0)) (advance w (S k0)))) /\
  Z.of_nat (count_accepted range) = 2 ^ 32 - 2 ^ 32 mod range /\
  2 ^ 31 < Z.of_nat (count_accepted range).
Proof.
  intros Hr Ha. split.
  - destruct (first_accepted_exists rand range w k Ha) as (k0 & Hk0 & Hf).
    exists k0. split; [exact Hk0 |]. split; [exact Hf |].
    intros fuel Hfuel. now apply lemire_rng_first.
  - exact (count_accepted_majority range Hr).
Qed.

Lemma rejection_loop_terminates_witness :
  (exists k0,
     (k0 <= 1)%nat /\
     first_accepted (rand_script [0; 0; 5; 0]) 3221225472 w0 k0 /\
     forall fuel, (k0 <= fuel)%nat ->
       lemire_rng (rand_script [0; 0; 5; 0]) fuel 3221225472 77 w0
       = Some (Outcome 0
                 (high 3221225472 (draw (rand_script [0; 0; 5; 0]) w0 k0))
                 (advance w0 (S k0)))) /\
  Z.of_nat (count_accepted 3221225472) = 2 ^ 32 - 2 ^ 32 mod 3221225472 /\
  2 ^ 31 < Z.of_nat (count_accepted 3221225472).
Proof.
  apply (rejection_loop_terminates (rand_script [0; 0; 5; 0]) 3221225472 77 w0 1);
    [lia | reflexivity].
Defined.

(** C10 (the result cell on error).  With [range = 0], [lemire_rng] returns
    [1] and the cell [result] points to holds what it held before the
    call. *)
Theorem zero_range_leaves_result (rand : nat -> Z) (fuel : nat) (result0 : Z)
    (w : world) :
  exists o, lemire_rng rand fuel 0 result0 w = Some o /\
            ret o = 1 /\ cell o = result0.
Proof. exists (Outcome 1 result0 w). repeat split. Qed.

(** ** Further properties of the code *)

(** With [range = 3 * 2^30] and a [rand()] that always returns [0], every
    draw is rejected and no amount of fuel gives [lemire_rng] a result: its
    termination rests on the draws. *)
Theorem no_accepted_draw_no_result (fuel : nat) (result0 : Z) (w : world) :
  lemire_rng (fun _ => 0) fuel 3221225472 result0 w = None.
Proof. apply lemire_rng_needs_accepted_draw. Qed.

(** X2 (the decomposition of [compute_interval]).  For 32-bit [n] and
    [range], the pair [(i, j)] stored by [compute_interval] satisfies
    [n * range = i * 2^32 + j] with [0 <= j < 2^32], and [i] is a 32-bit
    value. *)
Theorem compute_interval_decomposes (n range i j : Z) :
  0 <= n < 2 ^ 32 -> 0 <= range < 2 ^ 32 ->
  compute_interval n range = (i, j) ->
  n * range = i * 2 ^ 32 + j /\ 0 <= j < 2 ^ 32 /\ 0 <= i < 2 ^ 32.
Proof.
  intros Hn Hr E. rewrite compute_interval_spec in E by assumption.
  injection E as <- <-.
  pose proof (Z.div_mod (n * range) (2 ^ 32) ltac:(lia)) as D.
  pose proof (Z.mod_pos_bound (n * range) (2 ^ 32) ltac:(lia)) as B.
  split; [lia |]. split; [exact B |]. split.
  - apply Z.div_pos; nia.
  - apply Z.div_lt_upper_bound; nia.
Qed.

Lemma compute_interval_decomposes_witness :
  4294967295 * 12345 = 12344 * 2 ^ 32 + 4294954951 /\
  0 <= 4294954951 < 2 ^ 32 /\ 0 <= 12344 < 2 ^ 32.
Proof.
  apply (compute_interval_decomposes 4294967295 12345 12344 4294954951);
    [lia | lia | reflexivity].
Defined.

(** The draws read no [rand()] value but their own two. *)
Lemma draw_agree rand rand' w k :
  (forall i, (i < 2 * S k)%nat ->
     rand' (rand_calls w + i)%nat = rand (rand_calls w + i)%nat) ->
  forall m, (m <= k)%nat -> draw rand' w m = draw rand w m.
Proof.
  intros H m Hm. unfold draw, get_random_uniform_32bits_integer, advance.
  cbn [fst rand_calls].
  replace (S (rand_calls w + 2 * m)) with (rand_calls w + (2 * m + 1))%nat
    by lia.
  now rewrite !H by lia.
Qed.

(** X3 (a call depends on the values it consumes and on nothing else).  For
    every [range] with [0 < range < 2^32], if the first accepted draw is
    draw [k], the call returns [0], stores its [high] and leaves the state
    [k + 1] draws further; and any other sequence of [rand()] values that
    agrees on the [2 * (k + 1)] values these draws take, with any other
    content of the cell before the call, gives the same outcome: no later
    [rand()] value is read, and the old content of the cell is not used. *)
Theorem outcome_depends_on_consumed_values (rand rand' : nat -> Z)
    (fuel : nat) (range result0 result0' : Z) (w : world) (k : nat) :
  0 < range < 2 ^ 32 ->
  first_accepted rand range w k ->
  (k <= fuel)%nat ->
  (forall i, (i < 2 * S k)%nat ->
     rand' (rand_calls w + i)%nat = rand (rand_calls w + i)%nat) ->
  lemire_rng rand fuel range result0 w
  = Some (Outcome 0 (high range (draw rand w k)) (advance w (S k))) /\
  lemire_rng rand' fuel range result0' w
  = lemire_rng rand fuel range result0 w.
Proof.
  intros Hr Hk Hf Hagree.
  pose proof (draw_agree rand rand' w k Hagree) as Hd.
  assert (Hk' : first_accepted rand' range w k).
  { destruct Hk as [Ha Hb]. split.
    - now rewrite Hd by lia.
    - intros m Hm. rewrite Hd by lia. now apply Hb. }
  rewrite (lemire_rng_first rand range Hr fuel result0 w k Hk Hf).
  rewrite (lemire_rng_first rand' range Hr fuel result0' w k Hk' Hf).
  rewrite Hd by lia. split; reflexivity.
Qed.

Lemma outcome_depends_on_consumed_values_witness :
  lemire_rng (rand_script [0; 0; 5; 0]) 1 3221225472 77 w0
  = Some (Outcome 0 (high 3221225472 (draw (rand_script [0; 0; 5; 0]) w0 1))
            (advance w0 2)) /\
  lemire_rng (rand_script [0; 0; 5; 0; 99; 98]) 1 3221225472 0 w0
  = lemire_rng (rand_script [0; 0; 5; 0]) 1 3221225472 77 w0.
Proof.
  apply (outcome_depends_on_consumed_values
           (rand_script [0; 0; 5; 0]) (rand_script [0; 0; 5; 0; 99; 98])
           1 3221225472 77 0 w0 1).
  - lia.
  - split; [reflexivity |].
    intros m Hm. assert (m = 0)%nat as -> by lia. reflexivity.
  - lia.
  - intros i Hi. do 4 (destruct i as [| i]; [reflexivity |]). lia.
Defined.

(** ** The generator and [rand()] *)

Lemma land_1_mod2 a : Z.land a 1 = a mod 2.
Proof. change 1 with (Z.ones 1) at 1. now rewrite Z.land_ones by lia. Qed.

Lemma u32_mod2 a : Uint.u32 a mod 2 = a mod 2.
Proof.
  unfold Uint.u32, Uint.wrap. rewrite (Z.mod_eq a (2 ^ 32)) by lia.
  replace (a - 2 ^ 32 * (a / 2 ^ 32))
    with (a + (- (2 ^ 31) * (a / 2 ^ 32)) * 2)
    by (change (2 ^ 32) with (2 ^ 31 * 2); ring).
  apply Z.mod_add. lia.
Qed.

Lemma lor_bit31 r : 0 <= r < 2 ^ 31 -> Z.lor r (2 ^ 31) = r + 2 ^ 31.
Proof.
  intros Hr.
  assert (E : Z.land r (2 ^ 31) = 0).
  { apply Z.bits_inj'. intros n Hn.
    rewrite Z.land_spec, Z.bits_0, Z.pow2_bits_eqb by lia.
    destruct (Z.eqb_spec 31 n) as [<- | Ne]; [| apply andb_false_r].
    rewrite <- (Z.mod_small r (2 ^ 31)) by lia.
    now rewrite Z.mod_pow2_bits_high by lia. }
  now rewrite <- Z.lxor_lor, <- Z.add_nocarry_lxor.
Qed.

(** With [rand()] values of 31 bits, a draw is the first [rand()] value
    with the parity of the second as bit 31. *)
Lemma generator_value rand w :
  0 <= rand (rand_calls w) < 2 ^ 31 ->
  fst (get_random_uniform_32bits_integer rand w)
  = rand (rand_calls w) + 2 ^ 31 * (rand (S (rand_calls w)) mod 2).
Proof.
  intros H1. unfold get_random_uniform_32bits_integer; cbn [fst].
  unfold Uint.or32, Uint.shl32, Uint.and32.
  rewrite (u32_small (rand (rand_calls w))) by lia.
  rewrite land_1_mod2, u32_mod2, Z.shiftl_mul_pow2 by lia.
  pose proof (Z.mod_pos_bound (rand (S (rand_calls w))) 2 ltac:(lia)) as Hb.
  assert (Hc : rand (S (rand_calls w)) mod 2 = 0
               \/ rand (S (rand_calls w)) mod 2 = 1) by lia.
  destruct Hc as [-> | ->].
  - change (Uint.u32 (0 * 2 ^ 31)) with 0. rewrite Z.lor_0_r. lia.
  - change (Uint.u32 (1 * 2 ^ 31)) with (2 ^ 31).
    rewrite lor_bit31 by lia. lia.
Qed.

Lemma rand_at_value p r1 r2 w :
  rand_calls w = p -> 0 <= r1 < 2 ^ 31 -> 0 <= r2 <= 1 ->
  fst (get_random_uniform_32bits_integer (rand_at p r1 r2) w)
  = r1 + 2 ^ 31 * r2.
Proof.
  intros <- H1 H2. rewrite generator_value; unfold rand_at.
  - rewrite Nat.eqb_refl.
    rewrite (proj2 (Nat.eqb_neq (S (rand_calls w)) (rand_calls w))) by lia.
    now rewrite Z.mod_small by lia.
  - now rewrite Nat.eqb_refl.
Qed.

(** Every 32-bit value is the draw of some [rand()] values of 31 bits. *)
Lemma generator_reaches w v :
  0 <= v < 2 ^ 32 ->
  (forall k, 0 <= rand_at (rand_calls w) (v mod 2 ^ 31) (v / 2 ^ 31) k < 2 ^ 31) /\
  fst (get_random_uniform_32bits_integer
         (rand_at (rand_calls w) (v mod 2 ^ 31) (v / 2 ^ 31)) w) = v.
Proof.
  intros Hv.
  pose proof (Z.mod_pos_bound v (2 ^ 31) ltac:(lia)) as Hm.
  assert (Hd : 0 <= v / 2 ^ 31 <= 1).
  { split; [apply Z.div_pos; lia |].
    assert (v / 2 ^ 31 < 2) by (apply Z.div_lt_upper_bound; lia). lia. }
  split.
  - intros k. unfold rand_at. destruct (Nat.eqb k (rand_calls w)); lia.
  - rewrite rand_at_value by (reflexivity || lia).
    pose proof (Z.div_mod v (2 ^ 31) ltac:(lia)). lia.
Qed.

(** X4 (the bits of a draw).  When the first of the two [rand()] values a
    draw takes is within [[0, 2^31)], as the source assumes of [RAND_MAX],
    the draw is that value plus [2^31] if the second value is odd: its low
    31 bits are the first value, its bit 31 is the parity of the second, and
    no other bit of the second value matters. *)
Theorem generator_bit_layout (rand : nat -> Z) (w : world) :
  0 <= rand (rand_calls w) < 2 ^ 31 ->
  fst (get_random_uniform_32bits_integer rand w)
  = rand (rand_calls w) + 2 ^ 31 * (rand (S (rand_calls w)) mod 2) /\
  fst (get_random_uniform_32bits_integer rand w) mod 2 ^ 31
  = rand (rand_calls w) /\
  Z.testbit (fst (get_random_uniform_32bits_integer rand w)) 31
  = Z.odd (rand (S (rand_calls w))).
Proof.
  intros H1. rewrite generator_value by exact H1.
  set (r1 := rand (rand_calls w)) in *.
  set (r2 := rand (S (rand_calls w))).
  split; [reflexivity |]. split.
  - rewrite Z.mul_comm, Z.mod_add by lia. apply Z.mod_small. lia.
  - rewrite Z.testbit_odd, Z.shiftr_div_pow2 by lia.
    rewrite Z.mul_comm, Z.div_add by lia.
    rewrite (Z.div_small r1) by lia. cbn [Z.add].
    rewrite Zmod_odd. now destruct (Z.odd r2).
Qed.

Lemma generator_bit_layout_witness :
  fst (get_random_uniform_32bits_integer (rand_alternating 2147483647 1) w0)
  = 2147483647 + 2 ^ 31 * (1 mod 2) /\
  fst (get_random_uniform_32bits_integer (rand_alternating 2147483647 1) w0)
    mod 2 ^ 31 = 2147483647 /\
  Z.testbit
    (fst (get_random_uniform_32bits_integer (rand_alternating 2147483647 1) w0))
    31 = Z.odd 1.
Proof.
  apply (generator_bit_layout (rand_alternating 2147483647 1) w0).
  cbn. lia.
Defined.

(** X5 (the generator is onto and loses nothing but the high bits of the
    second value).  For every state and every 32-bit value [v] there are
    [rand()] values within [[0, 2^31)] whose draw is [v]; and two draws,
    each with a first [rand()] value within [[0, 2^31)], are equal only if
    the first values are equal and the second ones have the same parity. *)
Theorem generator_bijective (w : world) (v : Z) :
  0 <= v < 2 ^ 32 ->
  (exists rand,
     (forall k, 0 <= rand k < 2 ^ 31) /\
     fst (get_random_uniform_32bits_integer rand w) = v) /\
  (forall rand rand' w',
     0 <= rand (rand_calls w) < 2 ^ 31 ->
     0 <= rand' (rand_calls w') < 2 ^ 31 ->
     fst (get_random_uniform_32bits_integer rand w) = v ->
     fst (get_random_uniform_32bits_integer rand' w') = v ->
     rand (rand_calls w) = rand' (rand_calls w') /\
     rand (S (rand_calls w)) mod 2 = rand' (S (rand_calls w')) mod 2).
Proof.
  intros Hv. split.
  - exists (rand_at (rand_calls w) (v mod 2 ^ 31) (v / 2 ^ 31)).
    now apply generator_reaches.
  - intros rand rand' w' H1 H1' E E'.
    rewrite generator_value in E, E' by assumption.
    pose proof (Z.mod_pos_bound (rand (S (rand_calls w))) 2 ltac:(lia)).
    pose proof (Z.mod_pos_bound (rand' (S (rand_calls w'))) 2 ltac:(lia)).
    lia.
Qed.

Lemma generator_bijective_witness :
  (exists rand,
     (forall k, 0 <= rand k < 2 ^ 31) /\
     fst (get_random_uniform_32bits_integer rand w0) = 4294967295) /\
  (forall rand rand' w',
     0 <= rand (rand_calls w0) < 2 ^ 31 ->
     0 <= rand' (rand_calls w') < 2 ^ 31 ->
     fst (get_random_uniform_32bits_integer rand w0) = 4294967295 ->
     fst (get_random_uniform_32bits_integer rand' w') = 4294967295 ->
     rand (rand_calls w0) = rand' (rand_calls w') /\
     rand (S (rand_calls w0)) mod 2 = rand' (S (rand_calls w')) mod 2).
Proof. apply (generator_bijective w0 4294967295). lia. Defined.

(** ** What [lemire_rng] can and cannot return *)

(** The first value of the window of [v] is accepted and mapped to [v]. *)
Lemma window_start_accepted range v :
  0 < range < 2 ^ 32 -> 0 <= v < range ->
  0 <= window_start range v < 2 ^ 32 /\
  accepted range (window_start range v) = true /\
  high range (window_start range v) = v.
Proof.
  intros Hr Hv.
  pose proof (window_in_range range Hr v Hv) as [Ha Hb].
  pose proof (quotient_pos range Hr) as Hq.
  assert (Hn : 0 <= window_start range v < 2 ^ 32) by lia.
  split; [exact Hn |].
  pose proof (proj2 (accepted_to_window range Hr v (window_start range v) Hn)
                ltac:(lia)) as H.
  apply andb_true_iff in H. destruct H as [H1 H2].
  split; [exact H1 | now apply Z.eqb_eq].
Qed.

(** X6 (every value can be returned).  For every [range] with
    [0 < range < 2^32], every [v] in [[0, range)] and every state, there are
    [rand()] values within [[0, 2^31)] for which [lemire_rng] returns [0]
    and stores [v], after a single draw and with any fuel. *)
Theorem every_value_reachable (range v result0 : Z) (w : world) (fuel : nat) :
  0 < range < 2 ^ 32 -> 0 <= v < range ->
  exists rand,
    (forall k, 0 <= rand k < 2 ^ 31) /\
    lemire_rng rand fuel range result0 w = Some (Outcome 0 v (advance w 1)).
Proof.
  intros Hr Hv.
  destruct (window_start_accepted range v Hr Hv) as (Hn & Hacc & Hhigh).
  destruct (generator_reaches w (window_start range v) Hn) as [Hrand Hdraw].
  set (rand := rand_at (rand_calls w) (window_start range v mod 2 ^ 31)
                 (window_start range v / 2 ^ 31)) in *.
  exists rand. split; [exact Hrand |].
  assert (Hd : draw rand w 0 = window_start range v)
    by (unfold draw; now rewrite advance_0).
  rewrite (lemire_rng_first rand range Hr fuel result0 w 0).
  - now rewrite Hd, Hhigh.
  - split; [now rewrite Hd | intros m Hm; lia].
  - lia.
Qed.

Lemma every_value_reachable_witness :
  exists rand,
    (forall k, 0 <= rand k < 2 ^ 31) /\
    lemire_rng rand 0 12345 77 w0 = Some (Outcome 0 6000 (advance w0 1)).
Proof. apply (every_value_reachable 12345 6000 77 w0 0); lia. Defined.

(** X7 (a smaller [RAND_MAX] leaves a gap).  If [rand()] only yields values
    within [[0, M]] for some [M < 2^31], then for every [range] with
    [0 < range < 2^32] whatever [lemire_rng] stores is at most
    [M * range / 2^32] or at least [range / 2]: the values in between are
    never returned.  With [M = 2^31 - 1] there is no value in between. *)
Theorem small_rand_max_leaves_gap (rand : nat -> Z) (fuel : nat)
    (range result0 M : Z) (w : world) (o : outcome) :
  0 < range < 2 ^ 32 ->
  0 <= M < 2 ^ 31 ->
  (forall k, 0 <= rand k <= M) ->
  lemire_rng rand fuel range result0 w = Some o ->
  cell o <= M * range / 2 ^ 32 \/ range / 2 <= cell o.
Proof.
  intros Hr HM Hrand Ho.
  destruct (lemire_rng_returns rand range Hr fuel result0 w o Ho)
    as (k & _ & _ & ->).
  cbn [cell]. pose proof (draw_u32 rand w k) as Hn.
  rewrite high_spec by lia. revert Hn. unfold draw.
  set (wk := advance w k).
  pose proof (Hrand (rand_calls wk)) as H1.
  rewrite generator_value by lia.
  pose proof (Z.mod_pos_bound (rand (S (rand_calls wk))) 2 ltac:(lia)) as Hb.
  set (r1 := rand (rand_calls wk)) in *.
  set (b := rand (S (rand_calls wk)) mod 2) in *.
  intros Hn.
  assert (Hc : b = 0 \/ b = 1) by lia. destruct Hc as [-> | ->].
  - left. apply Z.div_le_mono; nia.
  - right.
    replace (range / 2) with (2 ^ 31 * range / 2 ^ 32).
    + apply Z.div_le_mono; nia.
    + change (2 ^ 32) with (2 ^ 31 * 2).
      apply Z.div_mul_cancel_l; lia.
Qed.

(** [RAND_MAX = 32767] and [range = 12345]: the value stored is [0] or at
    least [6172]. *)
Lemma small_rand_max_leaves_gap_witness :
  cell (Outcome 0 6172 (World 2 1)) <= 32767 * 12345 / 2 ^ 32 \/
  12345 / 2 <= cell (Outcome 0 6172 (World 2 1)).
Proof.
  apply (small_rand_max_leaves_gap (rand_alternating 32767 1) 0 12345 77 32767 w0).
  - lia.
  - lia.
  - intros k. unfold rand_alternating. destruct (Nat.even k); lia.
  - reflexivity.
Defined.

(** ** A call returns exactly when a draw is accepted *)

Lemma zero_draws w k : draw (fun _ => 0) w k = 0.
Proof. reflexivity. Qed.

(** X1 (when a call returns).  For every [range] with [0 < range < 2^32],
    [lemire_rng] returns, for some number of loop iterations, if and only if
    some draw of the sequence is accepted; when none is, it returns for no
    fuel.  In particular, when [range] does not divide [2^32], a [rand()]
    that always returns [0] keeps the loop running for ever: the loop has no
    retry cap. *)
Theorem returns_iff_accepted_draw (rand : nat -> Z) (range result0 : Z)
    (w : world) :
  0 < range < 2 ^ 32 ->
  ((exists fuel o, lemire_rng rand fuel range result0 w = Some o) <->
   (exists k, accepted range (draw rand w k) = true)) /\
  ((forall k, accepted range (draw rand w k) = false) ->
   forall fuel, lemire_rng rand fuel range result0 w = None) /\
  (0 < 2 ^ 32 mod range ->
   forall fuel, lemire_rng (fun _ => 0) fuel range result0 w = None).
Proof.
  intros Hr.
  assert (Hnone : forall rnd,
            (forall k, accepted range (draw rnd w k) = false) ->
            forall fuel, lemire_rng rnd fuel range result0 w = None).
  { intros rnd Hrej fuel.
    destruct (lemire_rng rnd fuel range result0 w) as [o |] eqn:E;
      [| reflexivity].
    destruct (lemire_rng_returns rnd range Hr fuel result0 w o E)
      as (k & _ & [Ha _] & _).
    rewrite Hrej in Ha. discriminate. }
  split; [| split].
  - split.
    + intros (fuel & o & Ho).
      destruct (lemire_rng_returns rand range Hr fuel result0 w o Ho)
        as (k & _ & [Ha _] & _).
      now exists k.
    + intros (k & Ha).
      destruct (first_accepted_exists rand range w k Ha) as (k0 & _ & Hf).
      exists k0. eexists. apply (lemire_rng_first rand range Hr); [exact Hf | lia].
  - apply Hnone.
  - intros Ht. apply Hnone. intros k. rewrite zero_draws.
    apply accepted_false. rewrite low_spec by lia.
    unfold threshold. now rewrite Z.mul_0_l, Z.mod_0_l by lia.
Qed.

Lemma returns_iff_accepted_draw_witness :
  ((exists fuel o,
      lemire_rng (rand_script [0; 0; 5; 0]) fuel 3221225472 77 w0 = Some o) <->
   (exists k,
      accepted 3221225472 (draw (rand_script [0; 0; 5; 0]) w0 k) = true)) /\
  ((forall k,
      accepted 3221225472 (draw (rand_script [0; 0; 5; 0]) w0 k) = false) ->
   forall fuel,
     lemire_rng (rand_script [0; 0; 5; 0]) fuel 3221225472 77 w0 = None) /\
  (0 < 2 ^ 32 mod 3221225472 ->
   forall fuel, lemire_rng (fun _ => 0) fuel 3221225472 77 w0 = None).
Proof.
  apply (returns_iff_accepted_draw (rand_script [0; 0; 5; 0]) 3221225472 77 w0).
  lia.
Defined.

(** ** Successive calls: the loop of [main] *)

Lemma map_seq_from {A : Type} (n : nat) : forall (f : nat -> A) a,
  map f (seq a n) = map (fun i => f (a + i)%nat) (seq 0 n).
Proof.
  induction n as [| n IH]; intros f a; [reflexivity |].
  cbn [seq map]. rewrite Nat.add_0_r. f_equal.
  rewrite (IH f (S a)), (IH (fun i => f (a + i)%nat) 1%nat).
  apply map_ext. intros i. f_equal. lia.
Qed.

Lemma draws_from rand w a n :
  map (draw rand w) (seq a n) = map (draw rand (advance w a)) (seq 0 n).
Proof.
  rewrite map_seq_from. apply map_ext. intros i.
  now rewrite draw_advance.
Qed.

Lemma filter_rejected (P : Z -> bool) (l : list Z) :
  (forall x, In x l -> P x = false) -> filter P l = [].
Proof.
  induction l as [| x l IH]; intros H; [reflexivity |].
  cbn [filter]. rewrite (H x (or_introl eq_refl)).
  apply IH. intros y Hy. apply H. now right.
Qed.

Lemma last_nonempty (l : list Z) : forall x d d',
  last (x :: l) d = last (x :: l) d'.
Proof.
  induction l as [| y l IH]; intros x d d'; [reflexivity |].
  change (last (x :: y :: l) d) with (last (y :: l) d).
  change (last (x :: y :: l) d') with (last (y :: l) d').
  apply IH.
Qed.

(** The accepted draws up to and after the first accepted one. *)
Lemma accepted_draws_split rand range w k m :
  first_accepted rand range w k ->
  accepted_draws rand range w (S k + m)
  = draw rand w k :: accepted_draws rand range (advance w (S k)) m.
Proof.
  intros [Ha Hb]. unfold accepted_draws.
  rewrite seq_app, seq_S, !map_app, !filter_app.
  rewrite filter_rejected.
  - cbn [Nat.add map filter app]. rewrite Ha. cbn [app].
    now rewrite draws_from.
  - intros x Hx. apply in_map_iff in Hx. destruct Hx as (i & <- & Hi).
    apply in_seq in Hi. apply Hb. lia.
Qed.

(** An accepted draw among the first [m] has an index below [m]. *)
Lemma accepted_draws_index rand range w m :
  accepted_draws rand range w m <> [] ->
  exists j, (j < m)%nat /\ accepted range (draw rand w j) = true.
Proof.
  unfold accepted_draws. intros H.
  destruct (filter (accepted range) (map (draw rand w) (seq 0 m)))
    as [| x l] eqn:E; [now elim H |].
  assert (Hin : In x (filter (accepted range) (map (draw rand w) (seq 0 m))))
    by (rewrite E; now left).
  apply filter_In in Hin. destruct Hin as [Hin Hacc].
  apply in_map_iff in Hin. destruct Hin as (j & <- & Hj).
  apply in_seq in Hj. exists j. split; [lia | exact Hacc].
Qed.

(** What a run of the loop has done when it ends. *)
Lemma main_loop_returns rand range :
  0 < range < 2 ^ 32 ->
  forall iters fuel result w lines result' w',
  main_loop rand fuel iters range result w = Some (lines, result', w') ->
  exists m,
    w' = advance w m /\
    length (accepted_draws rand range w m) = iters /\
    lines = map (fun n => Stdio.printf_random range (high range n))
                (accepted_draws rand range w m) /\
    result' = last (map (high range) (accepted_draws rand range w m)) result /\
    (forall j, m = S j -> accepted range (draw rand w j) = true).
Proof.
  intros Hr. induction iters as [| iters IH];
    intros fuel result w lines result' w' H.
  - injection H as <- <- <-. exists 0%nat.
    rewrite advance_0. repeat split. intros j Hj. discriminate.
  - cbn [main_loop] in H.
    destruct (lemire_rng rand fuel range result w) as [o |] eqn:Ho;
      [| discriminate].
    destruct (lemire_rng_returns rand range Hr fuel result w o Ho)
      as (k & _ & Hk & ->).
    cbn [cell after] in H.
    destruct (main_loop rand fuel iters range _ _) as [[[ls r1] w1] |] eqn:E;
      [| discriminate].
    injection H as <- <- <-.
    destruct (IH _ _ _ _ _ _ E) as (m & -> & Hlen & -> & -> & Hlast).
    exists (S k + m)%nat.
    rewrite (accepted_draws_split rand range w k m Hk).
    rewrite advance_advance. cbn [length map].
    split; [reflexivity |]. split; [now rewrite Hlen |].
    split; [reflexivity |]. split.
    + destruct (map (high range) (accepted_draws rand range (advance w (S k)) m))
        as [| z l]; [reflexivity |].
      change (last (high range (draw rand w k) :: z :: l) result)
        with (last (z :: l) result).
      apply last_nonempty.
    + intros j Hj. destruct m as [| m'].
      * assert (j = k) as -> by lia. apply Hk.
      * specialize (Hlast m' eq_refl). rewrite draw_advance in Hlast.
        assert (j = (S k + m')%nat) as -> by lia. exact Hlast.
Qed.

(** The loop ends as soon as the fuel reaches enough accepted draws. *)
Lemma main_loop_total rand range :
  0 < range < 2 ^ 32 ->
  forall iters fuel result w m,
  (iters <= length (accepted_draws rand range w m))%nat ->
  (m <= fuel)%nat ->
  exists lines result' w',
    main_loop rand fuel iters range result w = Some (lines, result', w').
Proof.
  intros Hr. induction iters as [| iters IH]; intros fuel result w m Hlen Hf.
  - now exists [], result, w.
  - destruct (accepted_draws_index rand range w m) as (j & Hj & Ha).
    { intros E. rewrite E in Hlen. cbn in Hlen. lia. }
    destruct (first_accepted_exists rand range w j Ha) as (k & Hkj & Hk).
    cbn [main_loop].
    rewrite (lemire_rng_first rand range Hr fuel result w k Hk) by lia.
    cbn [cell after].
    replace m with (S k + (m - S k))%nat in Hlen by lia.
    rewrite (accepted_draws_split rand range w k _ Hk) in Hlen.
    cbn [length] in Hlen.
    destruct (IH fuel (high range (draw rand w k)) (advance w (S k))
                (m - S k)%nat ltac:(lia) ltac:(lia))
      as (ls & r1 & w1 & E).
    rewrite E. now eexists _, _, _.
Qed.

Lemma accepted_draws_high rand range w m :
  0 < range < 2 ^ 32 ->
  Forall (fun v => 0 <= v < range)
         (map (high range) (accepted_draws rand range w m)).
Proof.
  intros Hr. apply Forall_forall. intros v Hv.
  apply in_map_iff in Hv. destruct Hv as (n & <- & Hn).
  unfold accepted_draws in Hn. apply filter_In in Hn. destruct Hn as [Hn _].
  apply in_map_iff in Hn. destruct Hn as (i & <- & _).
  apply high_bound; [apply draw_u32 | exact Hr].
Qed.

(** X8 (successive calls take the accepted draws in order).  For every
    [range] with [0 < range < 2^32], when the loop of [main] ends after
    [iters] calls of [lemire_rng] it has consumed some number [m] of draws,
    two [rand()] values each, of which exactly [iters] are accepted, the
    last one consumed being accepted; the lines written are those of the
    [high] of the accepted draws, in the order of the draws, each value
    within [[0, range)]; and [result] holds the last of them.  No draw is
    skipped, reused or reordered from one call to the next. *)
Theorem call_sequence_results (rand : nat -> Z) (fuel iters : nat)
    (range result : Z) (w : world) (lines : list String.string)
    (result' : Z) (w' : world) :
  0 < range < 2 ^ 32 ->
  main_loop rand fuel iters range result w = Some (lines, result', w') ->
  exists m,
    w' = advance w m /\
    length (accepted_draws rand range w m) = iters /\
    lines = map (Stdio.printf_random range)
                (map (high range) (accepted_draws rand range w m)) /\
    Forall (fun v => 0 <= v < range)
           (map (high range) (accepted_draws rand range w m)) /\
    result' = last (map (high range) (accepted_draws rand range w m)) result /\
    (forall j, m = S j -> accepted range (draw rand w j) = true).
Proof.
  intros Hr H.
  destruct (main_loop_returns rand range Hr _ _ _ _ _ _ _ H)
    as (m & Hw & Hlen & Hlines & Hres & Hlast).
  exists m. rewrite map_map.
  repeat (split; [assumption |]).
  split; [now apply accepted_draws_high |].
  split; assumption.
Qed.

(** [range = 3 * 2^30]: the draws are [0] (rejected), [5] and [1]. *)
Lemma call_sequence_results_witness :
  exists m,
    World 6 3 = advance w0 m /\
    length (accepted_draws (rand_script [0; 0; 5; 0; 1; 0]) 3221225472 w0 m)
    = 2%nat /\
    [Stdio.printf_random 3221225472 3; Stdio.printf_random 3221225472 0]
    = map (Stdio.printf_random 3221225472)
        (map (high 3221225472)
           (accepted_draws (rand_script [0; 0; 5; 0; 1; 0]) 3221225472 w0 m)) /\
    Forall (fun v => 0 <= v < 3221225472)
      (map (high 3221225472)
         (accepted_draws (rand_script [0; 0; 5; 0; 1; 0]) 3221225472 w0 m)) /\
    0 = last (map (high 3221225472)
                (accepted_draws (rand_script [0; 0; 5; 0; 1; 0]) 3221225472
                   w0 m)) 77 /\
    (forall j, m = S j ->
       accepted 3221225472 (draw (rand_script [0; 0; 5; 0; 1; 0]) w0 j) = true).
Proof.
  apply (call_sequence_results (rand_script [0; 0; 5; 0; 1; 0]) 1 2
           3221225472 77 w0);
    [lia | reflexivity].
Defined.

(** X9 (the loop of [main] ends).  For every [range] with
    [0 < range < 2^32], if at least [iters] of the first [m] draws are
    accepted, the loop of [main] ends after its [iters] calls, each call
    being allowed [m] iterations of the rejection loop or more. *)
Theorem call_sequence_returns (rand : nat -> Z) (fuel iters m : nat)
    (range result : Z) (w : world) :
  0 < range < 2 ^ 32 ->
  (iters <= length (accepted_draws rand range w m))%nat ->
  (m <= fuel)%nat ->
  exists lines result' w',
    main_loop rand fuel iters range result w = Some (lines, result', w') /\
    length lines = iters.
Proof.
  intros Hr Hlen Hf.
  destruct (main_loop_total rand range Hr iters fuel result w m Hlen Hf)
    as (lines & result' & w' & E).
  exists lines, result', w'. split; [exact E |].
  destruct (main_loop_returns rand range Hr _ _ _ _ _ _ _ E)
    as (m' & _ & Hlen' & -> & _).
  now rewrite length_map.
Qed.

Lemma call_sequence_returns_witness :
  exists lines result' w',
    main_loop (rand_script [0; 0; 5; 0; 1; 0]) 3 2 3221225472 77 w0
    = Some (lines, result', w') /\
    length lines = 2%nat.
Proof.
  apply (call_sequence_returns (rand_script [0; 0; 5; 0; 1; 0]) 3 2 3
           3221225472 77 w0);
    [lia | vm_compute; lia | lia].
Defined.

(** The first [a] iterations of the loop, then the others. *)
Lemma main_loop_app rand range fuel b : forall a result w,
  main_loop rand fuel (a + b) range result w
  = match main_loop rand fuel a range result w with
    | Some (l1, r1, w1) =>
        match main_loop rand fuel b range r1 w1 with
        | Some (l2, r2, w2) => Some (l1 ++ l2, r2, w2)
        | None => None
        end
    | None => None
    end.
Proof.
  induction a as [| a IH]; intros result w.
  - cbn [Nat.add main_loop].
    destruct (main_loop rand fuel b range result w) as [[[l2 r2] w2] |];
      reflexivity.
  - cbn [Nat.add main_loop].
    destruct (lemire_rng rand fuel range result w) as [o |]; [| reflexivity].
    rewrite IH.
    destruct (main_loop rand fuel a range (cell o) (after o))
      as [[[l1 r1] w1] |]; [| reflexivity].
    destruct (main_loop rand fuel b range r1 w1) as [[[l2 r2] w2] |];
      reflexivity.
Qed.

(** Every call a run of the loop makes returns [0]. *)
Lemma main_loop_calls rand range :
  0 < range < 2 ^ 32 ->
  forall iters fuel result w lines result' w' j,
  main_loop rand fuel iters range result w = Some (lines, result', w') ->
  (j < iters)%nat ->
  exists lines_j result_j w_j o,
    main_loop rand fuel j range result w = Some (lines_j, result_j, w_j) /\
    lemire_rng rand fuel range result_j w_j = Some o /\
    ret o = 0 /\ 0 <= cell o < range.
Proof.
  intros Hr iters fuel result w lines result' w' j H Hj.
  replace iters with (j + S (iters - S j))%nat in H by lia.
  rewrite main_loop_app in H.
  destruct (main_loop rand fuel j range result w) as [[[l1 r1] w1] |];
    [| discriminate].
  exists l1, r1, w1.
  cbn [main_loop] in H.
  destruct (lemire_rng rand fuel range r1 w1) as [o |] eqn:Ho;
    [| discriminate].
  exists o. split; [reflexivity |]. split; [reflexivity |].
  destruct (lemire_rng_returns rand range Hr fuel r1 w1 o Ho)
    as (k & _ & _ & ->).
  cbn [ret cell]. split; [reflexivity |].
  apply high_bound; [apply draw_u32 | exact Hr].
Qed.

(** X10 ([main]).  Whatever the time and whatever sequence [rand()] yields
    for the seed: when [main] returns, it returns [0] and has written
    exactly ten lines, those of the [high] for [range = 12345] of the
    accepted draws of the sequence in order, each value within
    [[0, 12345)]; [main] does return as soon as ten of the first [m] draws
    are accepted and each call may run [m] iterations of its loop; and the
    value [lemire_rng] returns, which [main] drops, is never an error
    there: each of the ten calls, made in the state and with the cell the
    iterations before it left, returns [0] and stores a value within
    [[0, 12345)], as does any call with this [range] from any state. *)
Theorem main_prints_ten (libc_rand : Z -> nat -> Z) (now : Z) (fuel : nat) :
  (forall r lines,
     main libc_rand now fuel = Some (r, lines) ->
     r = 0 /\
     length lines = 10%nat /\
     exists m,
       length (accepted_draws (libc_rand (Uint.u32 now)) 12345 (World 0 0) m)
       = 10%nat /\
       lines = map (Stdio.printf_random 12345)
                 (map (high 12345)
                    (accepted_draws (libc_rand (Uint.u32 now)) 12345
                       (World 0 0) m)) /\
       Forall (fun v => 0 <= v < 12345)
         (map (high 12345)
            (accepted_draws (libc_rand (Uint.u32 now)) 12345 (World 0 0) m))) /\
  (forall m,
     (10 <= length (accepted_draws (libc_rand (Uint.u32 now)) 12345
                      (World 0 0) m))%nat ->
     (m <= fuel)%nat ->
     exists lines, main libc_rand now fuel = Some (0, lines)) /\
  (forall r lines j,
     main libc_rand now fuel = Some (r, lines) ->
     (j < 10)%nat ->
     exists lines_j result_j w_j o,
       main_loop (libc_rand (Uint.u32 now)) fuel j 12345 0 (World 0 0)
       = Some (lines_j, result_j, w_j) /\
       lemire_rng (libc_rand (Uint.u32 now)) fuel 12345 result_j w_j = Some o /\
       ret o = 0 /\ 0 <= cell o < 12345) /\
  (forall result w o,
     lemire_rng (libc_rand (Uint.u32 now)) fuel 12345 result w = Some o ->
     ret o = 0 /\ 0 <= cell o < 12345).
Proof.
  assert (Hr : 0 < 12345 < 2 ^ 32) by lia.
  unfold main. cbv zeta. split; [| split; [| split]].
  - intros r lines H.
    destruct (main_loop (libc_rand (Uint.u32 now)) fuel 10 12345 0 (World 0 0))
      as [[[ls r1] w1] |] eqn:E; [| discriminate].
    injection H as <- <-.
    destruct (main_loop_returns _ 12345 Hr _ _ _ _ _ _ _ E)
      as (m & _ & Hlen & -> & _).
    split; [reflexivity |]. split; [now rewrite length_map |].
    exists m. split; [exact Hlen |]. split; [now rewrite map_map |].
    now apply accepted_draws_high.
  - intros m Hlen Hf.
    destruct (main_loop_total _ 12345 Hr 10 fuel 0 (World 0 0) m Hlen Hf)
      as (lines & result' & w' & E).
    rewrite E. now exists lines.
  - intros r lines j H Hj.
    destruct (main_loop (libc_rand (Uint.u32 now)) fuel 10 12345 0 (World 0 0))
      as [[[ls r1] w1] |] eqn:E; [| discriminate].
    exact (main_loop_calls _ 12345 Hr _ _ _ _ _ _ _ j E Hj).
  - intros result w o Ho.
    destruct (lemire_rng_returns _ 12345 Hr fuel result w o Ho)
      as (k & _ & _ & ->).
    cbn [ret cell]. split; [reflexivity |].
    apply high_bound; [apply draw_u32 | exact Hr].
Qed.
